(** * VectorPool: a per-tick pool of reusable 2-D vectors

    Shallow embedding of [src/utils/Vector/VectorPool.ts].

    The pool is an array of references to mutable [Vector2D] objects together
    with a counter of active vectors.  Because the class hands out references
    and [clear_index] copies a reference from one array position to another,
    the embedding keeps an explicit object heap: array entries are heap
    locations, and two entries holding the same location are the same
    JavaScript object. *)

From stdpp Require Import gmap list.

Local Open Scope Z_scope.

(** ** Heap locations and thrown values *)

(** Object identity.  Allocation picks a location outside the domain of the
    heap, so a freshly constructed object is distinct from every old one. *)
Abbreviation loc := nat.

(** What a call can throw: the two strings thrown by [clear_index], and the
    two runtime errors of the language that the methods can run into
    ([undefined] used as an object; [new Array(n)] with a negative [n]). *)
Inductive error : Set :=
  | IndexOutOfBound      (* throw 'Index out of bound' *)
  | PoolAlreadyCleared   (* throw 'Pool is already cleared' *)
  | TypeError
  | RangeError.

Inductive result (A : Type) : Type :=
  | Ok (a : A)
  | Throw (e : error).
Arguments Ok {A} a.
Arguments Throw {A} e.

Section VectorPool.

(** Component values are JavaScript numbers.  The pool only stores and copies
    them, so they are kept abstract: [zero] is the literal [0], and [cos] and
    [sin] stand for [Math.cos] and [Math.sin]. *)
Context {num : Type} (zero : num) (cos sin : num → num).

(** ** Vector2D *)

(** Modelled from the spec: the class [Vector2D] (imported from ["./"]) is not
    part of the available sources.  Per the spec it is a mutable value with
    components [x], [y] and an optional back-reference [_pool_index]; the
    constructor call sites [new Vector2D(x, y, i)] fix the argument order. *)
Record Vector2D : Type := mkVector2D {
  x : num;
  y : num;
  _pool_index : option Z;   (* number | undefined *)
}.

(** The external point type read by [fromObservablePoint]: anything exposing
    numeric [x] and [y]. *)
Record ObservablePoint : Type := mkPoint {
  point_x : num;
  point_y : num;
}.

(** ** Program state *)

(** The fields of the class.  An array entry is [Some l] for a reference to the
    object at [l], and [None] for [undefined] (a hole left by
    [new Array(n)], or the result of an assignment from a missing entry). *)
Record VectorPool : Type := mkVectorPool {
  _pool : list (option loc);
  _count : Z;
}.

Record world : Type := mkWorld {
  heap : gmap loc Vector2D;
  pool : VectorPool;
}.

(** A method body: reads and writes the world, returns or throws. *)
Definition M (A : Type) : Type := world → result A * world.

Definition ret {A} (a : A) : M A := λ w, (Ok a, w).
Definition throw {A} (e : error) : M A := λ w, (Throw e, w).
Definition bind {A B} (c : M A) (k : A → M B) : M B :=
  λ w, match c w with
       | (Ok a, w') => k a w'
       | (Throw e, w') => (Throw e, w')
       end.

Notation "'let*' v ':=' c 'in' k" := (bind c (λ v, k))
  (at level 10, v name, c at level 100, k at level 200).
Notation "c >> k" := (bind c (λ _, k))
  (at level 100, k at level 200, right associativity).

Definition gets {A} (f : world → A) : M A := λ w, (Ok (f w), w).
Definition get_pool : M (list (option loc)) := gets (λ w, _pool (pool w)).
Definition set_pool (a : list (option loc)) : M unit :=
  λ w, (Ok tt, mkWorld (heap w) (mkVectorPool a (_count (pool w)))).
Definition set_count (c : Z) : M unit :=
  λ w, (Ok tt, mkWorld (heap w) (mkVectorPool (_pool (pool w)) c)).

(** [new Vector2D(..)]: a new object at a location not yet in use. *)
Definition alloc (v : Vector2D) : M loc :=
  λ w, let l := fresh (dom (heap w)) in
       (Ok l, mkWorld (<[l := v]> (heap w)) (pool w)).

(** Reading the object behind a reference. *)
Definition deref (l : loc) : M Vector2D :=
  λ w, match heap w !! l with
       | Some v => (Ok v, w)
       | None => (Throw TypeError, w)
       end.

Definition store (l : loc) (v : Vector2D) : M unit :=
  λ w, (Ok tt, mkWorld (<[l := v]> (heap w)) (pool w)).

(** ** Arrays *)

(** [a[i]] for a number [i]: the entry, or [undefined] outside the array. *)
Definition arr_get (a : list (option loc)) (i : Z) : option loc :=
  if i <? 0 then None else mjoin (a !! Z.to_nat i).

(** [a[i] = e] for [0 <= i]: replaces the entry, or extends the array with
    holes up to position [i]. *)
Definition arr_set (a : list (option loc)) (i : Z) (e : option loc)
  : list (option loc) :=
  if i <? Z.of_nat (length a) then <[Z.to_nat i := e]> a
  else a ++ replicate (Z.to_nat i - length a)%nat None ++ [e].

(** [a.push(l)] *)
Definition arr_push (a : list (option loc)) (l : loc) : list (option loc) :=
  a ++ [Some l].

(** [this._pool[i]] used as an object: [undefined] raises a [TypeError]. *)
Definition pool_obj (i : Z) : M loc :=
  let* a := get_pool in
  match arr_get a i with
  | Some l => ret l
  | None => throw TypeError
  end.

(** ** Methods of Vector2D *)

(** Modelled from the spec: [set(x, y)] assigns the two components and
    returns the vector itself; the back-reference is not among its
    arguments. *)
Definition Vector2D_set (l : loc) (x0 y0 : num) : M loc :=
  let* v := deref l in
  store l (mkVector2D x0 y0 (_pool_index v)) >>
  ret l.

(** Modelled from the spec: [copy(source)] copies the components of another
    vector, not its identity. *)
Definition Vector2D_copy (l : loc) (source : loc) : M loc :=
  let* s := deref source in
  Vector2D_set l (x s) (y s).

(** Modelled from the spec: [fromAngle(angle)] makes the vector the unit
    vector at [angle] radians. *)
Definition Vector2D_fromAngle (l : loc) (angle : num) : M loc :=
  Vector2D_set l (cos angle) (sin angle).

(** Modelled from the spec: [fromObservablePoint(point)] reads the point's
    [x] and [y]. *)
Definition Vector2D_fromObservablePoint (l : loc) (p : ObservablePoint) : M loc :=
  Vector2D_set l (point_x p) (point_y p).

(** [obj._pool_index = i] *)
Definition set_pool_index (l : loc) (i : option Z) : M unit :=
  let* v := deref l in
  store l (mkVector2D (x v) (y v) i).

(** ** Methods of VectorPool *)

(** [get size()] and [get count()] *)
Definition size (w : world) : Z := Z.of_nat (length (_pool (pool w))).
Definition count (w : world) : Z := _count (pool w).

(** The loop of the constructor, over the remaining values of [i]. *)
Fixpoint constructor_loop (todo : list Z) : M unit :=
  match todo with
  | [] => ret tt
  | i :: rest =>
      let* l := alloc (mkVector2D zero zero (Some i)) in
      let* a := get_pool in
      set_pool (arr_set a i (Some l)) >>
      constructor_loop rest
  end.

(** [constructor(initialPoolSize)]: the field initialiser [_count = 0] runs
    first, then [new Array(initialPoolSize)] (which throws for a negative
    length), then the loop. *)
Definition constructor (initialPoolSize : Z) : M unit :=
  set_count 0 >>
  (if initialPoolSize <? 0 then throw RangeError
   else set_pool (replicate (Z.to_nat initialPoolSize) None)) >>
  constructor_loop (seqZ 0 initialPoolSize).

(** [new(x, y)]: the count is incremented first; an object is constructed and
    pushed only if the array is then too short; the object at position
    [count - 1] is set to [(x, y)] and returned. *)
Definition new (x0 y0 : num) : M loc :=
  let* c := gets count in
  set_count (c + 1) >>
  let* s := gets size in
  let* c := gets count in
  (if s <? c
   then let* l := alloc (mkVector2D x0 y0 (Some (c - 1))) in
        let* a := get_pool in
        set_pool (arr_push a l)
   else ret tt) >>
  let* c := gets count in
  let* r := pool_obj (c - 1) in
  Vector2D_set r x0 y0.

(** The three methods below call [this.new()] with its default arguments
    [(0, 0)] and chain a method of [Vector2D] on the result. *)
Definition clone (vector : loc) : M loc :=
  let* r := new zero zero in
  Vector2D_copy r vector.

Definition fromAngle (angle : num) : M loc :=
  let* r := new zero zero in
  Vector2D_fromAngle r angle.

Definition fromObservablePoint (point : ObservablePoint) : M loc :=
  let* r := new zero zero in
  Vector2D_fromObservablePoint r point.

Definition clear : M unit := set_count 0.

(** [clear_index(index)].  The index ranges over the integers, negative ones
    included; the statements are those of the method, in their order, and
    [this._count] is read again wherever the source reads it. *)
Definition clear_index (index : Z) : M unit :=
  let* c := gets count in
  if (index <? 0) || (index >=? c) then throw IndexOutOfBound else
  let* c := gets count in
  if c =? 0 then throw PoolAlreadyCleared else
  let* c := gets count in
  (if index + 1 <? c
   then let* r := pool_obj index in
        set_pool_index r None >>
        let* a := get_pool in
        let* c := gets count in
        set_pool (arr_set a index (arr_get a (c - 1))) >>
        let* r := pool_obj index in
        set_pool_index r (Some index)
   else ret tt) >>
  let* c := gets count in
  set_count (c - 1).

(** ** Reading the pool from outside *)

(** The vector currently referenced by array position [i], if any. *)
Definition slot (w : world) (i : Z) : option Vector2D :=
  arr_get (_pool (pool w)) i ≫= λ l, heap w !! l.

(** ** Sequences of calls *)

(** One call on the pool by its owner. *)
Inductive op : Type :=
  | OpNew (x0 y0 : num)
  | OpClone (vector : loc)
  | OpFromAngle (angle : num)
  | OpFromObservablePoint (point : ObservablePoint)
  | OpClear
  | OpClearIndex (index : Z).

(** The world after a call, whether it returned or threw. *)
Definition step (o : op) (w : world) : world :=
  match o with
  | OpNew x0 y0 => (new x0 y0 w).2
  | OpClone vector => (clone vector w).2
  | OpFromAngle angle => (fromAngle angle w).2
  | OpFromObservablePoint point => (fromObservablePoint point w).2
  | OpClear => (clear w).2
  | OpClearIndex index => (clear_index index w).2
  end.

(** The worlds in which a pool exists: right after its constructor returned,
    and after any further call. *)
Inductive reachable : world → Prop :=
  | reachable_constructed w0 n w :
      constructor n w0 = (Ok tt, w) → reachable w
  | reachable_step w o :
      reachable w → reachable (step o w).

(** [clear_index] takes its third branch: the index is active and is not the
    last active one. *)
Definition moves_last (o : op) (w : world) : Prop :=
  match o with
  | OpClearIndex index => 0 ≤ index ∧ index + 1 < count w
  | _ => False
  end.

(** Worlds reached without [clear_index] ever moving the last active
    reference. *)
Inductive reachable_unmoved : world → Prop :=
  | unmoved_constructed w0 n w :
      constructor n w0 = (Ok tt, w) → reachable_unmoved w
  | unmoved_step w o :
      reachable_unmoved w → ¬ moves_last o w → reachable_unmoved (step o w).

(** A sequence of calls, and a sequence of calls of [new]. *)
Definition steps (os : list op) (w : world) : world :=
  foldl (λ w o, step o w) w os.

Definition news (args : list (num * num)) (w : world) : world :=
  foldl (λ w p, (new p.1 p.2 w).2) w args.

(** ** Invariants *)

(** The active count is within the array, and every array position holds a
    reference to an object. *)
Definition wf (w : world) : Prop :=
  0 ≤ count w ≤ size w ∧
  ∀ i, 0 ≤ i < size w →
    ∃ l, arr_get (_pool (pool w)) i = Some l ∧ is_Some (heap w !! l).

(** Every array position refers to an object whose back-reference is that
    position. *)
Definition indexed (w : world) : Prop :=
  ∀ i l, arr_get (_pool (pool w)) i = Some l →
    ∃ v, heap w !! l = Some v ∧ _pool_index v = Some i.

(** The state of the constructor's loop before iteration [k]: positions
    below [k] are filled with indexed objects, the others are still holes. *)
Definition filled (n k : Z) (w : world) : Prop :=
  size w = n ∧ count w = 0 ∧
  ∀ i, 0 ≤ i →
    (i < k → ∃ l v, arr_get (_pool (pool w)) i = Some l ∧
                    heap w !! l = Some v ∧ _pool_index v = Some i) ∧
    (k ≤ i → arr_get (_pool (pool w)) i = None).

(** One heap keeps every object of another, with the same back-reference. *)
Definition heap_le (h h' : gmap loc Vector2D) : Prop :=
  ∀ l v, h !! l = Some v →
    ∃ v', h' !! l = Some v' ∧ _pool_index v' = _pool_index v.

End VectorPool.

Arguments Vector2D : clear implicits.
Arguments ObservablePoint : clear implicits.
Arguments world : clear implicits.
Arguments op : clear implicits.
Arguments M : clear implicits.

(** ** A concrete run

    Integer components, a pool constructed with [initialPoolSize = 2] in an
    empty heap, then three vectors A = (1,1), B = (2,2), C = (3,3).  The
    objects sit at heap locations 0, 1 and 2.  No call below uses
    [fromAngle], so the two functions standing for [Math.cos] and [Math.sin]
    are never applied. *)

Definition empty_world : world Z := mkWorld ∅ (mkVectorPool [] 0).

Definition call : op Z → world Z → world Z := step 0 (λ _, 1) (λ _, 0).

Definition fresh_pool : world Z := (constructor 0 2 empty_world).2.
Definition one_live : world Z := call (OpNew 1 1) fresh_pool.
Definition two_live : world Z := call (OpNew 2 2) one_live.
Definition three_live : world Z := call (OpNew 3 3) two_live.

(** [clear_index(0)] on A, B, C, and then the next [new(4, 4)]. *)
Definition released : world Z := call (OpClearIndex 0) three_live.
Definition realiased : world Z := call (OpNew 4 4) released.

(** * Properties *)

Section Properties.

Context {num : Type} (zero : num) (cos sin : num → num).

Implicit Types (w : world num) (a : list (option loc)) (i index c : Z)
  (l r : loc) (v : Vector2D num) (e : option loc)
  (h : gmap loc (Vector2D num)).

(** ** Arrays *)

Lemma arr_get_Some a i l :
  arr_get a i = Some l ↔ 0 ≤ i ∧ a !! Z.to_nat i = Some (Some l).
Proof.
  unfold arr_get. destruct (Z.ltb_spec i 0) as [Hi|Hi].
  - split; [done | lia].
  - destruct (a !! Z.to_nat i) as [[l'|]|]; simpl; split;
      first [by intros [= ->] | by intros [_ [= ->]] | done | by intros [_ ?]].
Qed.

Lemma arr_get_range a i l :
  arr_get a i = Some l → 0 ≤ i < Z.of_nat (length a).
Proof.
  intros [Hi Hl%lookup_lt_Some]%arr_get_Some. lia.
Qed.

Lemma arr_get_outside a i :
  Z.of_nat (length a) ≤ i → arr_get a i = None.
Proof.
  intros Hi. unfold arr_get. case_match; [done|].
  rewrite lookup_ge_None_2; [done | lia].
Qed.

Lemma arr_get_push a l i :
  arr_get (arr_push a l) i =
    if decide (i = Z.of_nat (length a)) then Some l else arr_get a i.
Proof.
  unfold arr_get, arr_push. case_decide as Hi.
  - subst i. destruct (Z.ltb_spec (Z.of_nat (length a)) 0); [lia|].
    rewrite Nat2Z.id, lookup_app_r, Nat.sub_diag; done.
  - case_match; [done|].
    destruct (decide (Z.to_nat i < length a)%nat) as [Hlt|Hge].
    + by rewrite lookup_app_l.
    + rewrite !lookup_ge_None_2; [done | lia |].
      rewrite length_app; simpl; lia.
Qed.

Lemma arr_set_inside a i e :
  0 ≤ i < Z.of_nat (length a) → arr_set a i e = <[Z.to_nat i := e]> a.
Proof.
  intros Hi. unfold arr_set. destruct (Z.ltb_spec i (Z.of_nat (length a))); [done | lia].
Qed.

Lemma arr_get_insert a i j e :
  0 ≤ i < Z.of_nat (length a) → 0 ≤ j →
  arr_get (<[Z.to_nat i := e]> a) j = if decide (i = j) then e else arr_get a j.
Proof.
  intros Hi Hj. unfold arr_get.
  destruct (Z.ltb_spec j 0); [lia|].
  case_decide as Hij.
  - subst j. rewrite list_lookup_insert_eq; [done | lia].
  - rewrite list_lookup_insert_ne; [done | lia].
Qed.

Lemma arr_set_length a i e :
  (length a ≤ length (arr_set a i e))%nat.
Proof.
  unfold arr_set. case_match.
  - by rewrite length_insert.
  - rewrite length_app. lia.
Qed.

(** ** One call of [new] *)

Ltac run :=
  unfold new, clear_index, clear, pool_obj, set_pool_index, Vector2D_set,
    get_pool, bind, gets, set_count, set_pool, alloc, deref, store, ret, throw;
  simpl.

(** What [new] does to the two numbers of the pool, in any world. *)
Lemma new_count w x0 y0 : count (new x0 y0 w).2 = count w + 1.
Proof.
  run. unfold count. repeat (case_match; simplify_eq/=); done.
Qed.

Lemma new_size w x0 y0 :
  size (new x0 y0 w).2 = if size w <? count w + 1 then size w + 1 else size w.
Proof.
  run. unfold size, count, arr_push.
  repeat (case_match; simplify_eq/=); rewrite ?length_app; simpl; lia.
Qed.

(** [new] when the array has an entry at position [count]: the object there
    is reused. *)
Lemma new_reuse w x0 y0 l v :
  arr_get (_pool (pool w)) (count w) = Some l →
  heap w !! l = Some v →
  new x0 y0 w =
    (Ok l, mkWorld (<[l := mkVector2D x0 y0 (_pool_index v)]> (heap w))
                   (mkVectorPool (_pool (pool w)) (count w + 1))).
Proof.
  intros Hl Hv. pose proof (arr_get_range _ _ _ Hl) as Hr.
  run. unfold size, count in *. simpl.
  destruct (Z.ltb_spec (Z.of_nat (length (_pool (pool w)))) (_count (pool w) + 1));
    [lia|]. simpl.
  rewrite Z.add_simpl_r, Hl. simpl. by rewrite Hv.
Qed.

(** [new] when every array position is active: one object is constructed
    and pushed. *)
Lemma new_grow w x0 y0 :
  count w = size w →
  new x0 y0 w =
    (Ok (fresh (dom (heap w))),
     mkWorld (<[fresh (dom (heap w)) := mkVector2D x0 y0 (Some (count w))]> (heap w))
             (mkVectorPool (arr_push (_pool (pool w)) (fresh (dom (heap w))))
                           (count w + 1))).
Proof.
  intros Hc. run. unfold size, count in *. simpl.
  destruct (Z.ltb_spec (Z.of_nat (length (_pool (pool w)))) (_count (pool w) + 1));
    [|lia]. simpl.
  rewrite Z.add_simpl_r, arr_get_push, Hc, decide_True by done. simpl.
  rewrite lookup_insert_eq. simpl. by rewrite insert_insert_eq.
Qed.

(** ** One call of [clear_index] *)

Lemma clear_index_outside w index :
  index < 0 ∨ count w ≤ index →
  clear_index index w = (Throw IndexOutOfBound, w).
Proof.
  intros Hi. run.
  destruct (Z.ltb_spec index 0), (Z.geb_spec index (count w)); simpl; try done; lia.
Qed.

Lemma clear_index_last w index :
  0 ≤ index → index + 1 = count w →
  clear_index index w =
    (Ok tt, mkWorld (heap w) (mkVectorPool (_pool (pool w)) (count w - 1))).
Proof.
  intros Hi Hc. run.
  destruct (Z.ltb_spec index 0), (Z.geb_spec index (count w)); simpl; try lia.
  destruct (Z.eqb_spec (count w) 0); simpl; try lia.
  destruct (Z.ltb_spec (index + 1) (count w)); simpl; [lia | done].
Qed.

Lemma clear_index_move w index la lc va vc :
  0 ≤ index → index + 1 < count w →
  arr_get (_pool (pool w)) index = Some la →
  arr_get (_pool (pool w)) (count w - 1) = Some lc →
  heap w !! la = Some va →
  <[la := mkVector2D (x va) (y va) None]> (heap w) !! lc = Some vc →
  clear_index index w =
    (Ok tt,
     mkWorld (<[lc := mkVector2D (x vc) (y vc) (Some index)]>
                (<[la := mkVector2D (x va) (y va) None]> (heap w)))
             (mkVectorPool (<[Z.to_nat index := Some lc]> (_pool (pool w)))
                           (count w - 1))).
Proof.
  intros Hi Hc Hla Hlc Hva Hvc.
  pose proof (arr_get_range _ _ _ Hla) as Hr. run. unfold count in *.
  destruct (Z.ltb_spec index 0), (Z.geb_spec index (_count (pool w)));
    simpl; try lia.
  destruct (Z.eqb_spec (_count (pool w)) 0); simpl; try lia.
  destruct (Z.ltb_spec (index + 1) (_count (pool w))); simpl; [|lia].
  rewrite Hla; simpl. rewrite Hva; simpl.
  rewrite Hlc, arr_set_inside by done.
  rewrite arr_get_insert, decide_True by (done || lia). simpl.
  by rewrite Hvc.
Qed.

(** ** Heaps that keep every object and its back-reference *)

Lemma heap_le_refl h : heap_le h h.
Proof. intros l v Hv. eauto. Qed.

Lemma heap_le_trans (h1 h2 h3 : gmap loc (Vector2D num)) : heap_le h1 h2 → heap_le h2 h3 → heap_le h1 h3.
Proof.
  intros H12 H23 l v Hv.
  destruct (H12 _ _ Hv) as (v2 & Hv2 & E2).
  destruct (H23 _ _ Hv2) as (v3 & Hv3 & E3).
  exists v3. split; [done | congruence].
Qed.

Lemma heap_le_fresh h v : heap_le h (<[fresh (dom h) := v]> h).
Proof.
  intros l v' Hv'. exists v'. split; [|done].
  rewrite lookup_insert_ne; [done|].
  intros <-. apply (is_fresh (dom h)), elem_of_dom. eauto.
Qed.

Lemma heap_le_components h l v x0 y0 :
  h !! l = Some v → heap_le h (<[l := mkVector2D x0 y0 (_pool_index v)]> h).
Proof.
  intros Hv l' v' Hv'. destruct (decide (l = l')) as [<-|Hne].
  - rewrite lookup_insert_eq. eexists; split; [done|]. simpl. congruence.
  - rewrite lookup_insert_ne by done. eauto.
Qed.

(** The methods of [Vector2D] that the pool chains after [new] touch
    components only. *)
Lemma Vector2D_set_frame w l x0 y0 :
  pool (Vector2D_set l x0 y0 w).2 = pool w ∧
  heap_le (heap w) (heap (Vector2D_set l x0 y0 w).2).
Proof.
  run. destruct (heap w !! l) as [v|] eqn:Hv; simpl.
  - split; [done|]. by apply heap_le_components.
  - split; [done|]. apply heap_le_refl.
Qed.

Lemma Vector2D_copy_frame w l source :
  pool (Vector2D_copy l source w).2 = pool w ∧
  heap_le (heap w) (heap (Vector2D_copy l source w).2).
Proof.
  unfold Vector2D_copy, bind, deref.
  destruct (heap w !! source) as [s|]; simpl.
  - apply Vector2D_set_frame.
  - split; [done|]. apply heap_le_refl.
Qed.

(** ** Invariants under the calls *)

Lemma wf_frame w w' :
  wf w → pool w' = pool w → heap_le (heap w) (heap w') → wf w'.
Proof.
  intros [Hc Hs] Hp Hh. unfold wf, count, size in *. rewrite Hp.
  split; [done|]. intros i Hi.
  destruct (Hs i Hi) as (l & Hl & [v Hv]).
  destruct (Hh _ _ Hv) as (v' & Hv' & _). eauto.
Qed.

Lemma indexed_frame w w' :
  indexed w → _pool (pool w') = _pool (pool w) →
  heap_le (heap w) (heap w') → indexed w'.
Proof.
  intros Hx Hp Hh i l Hl. rewrite Hp in Hl.
  destruct (Hx _ _ Hl) as (v & Hv & Ei).
  destruct (Hh _ _ Hv) as (v' & Hv' & E). exists v'. split; [done | congruence].
Qed.

(** In a well-formed world [new] takes one of two paths. *)
Lemma new_cases w x0 y0 :
  wf w →
  (∃ l v, count w < size w ∧
      arr_get (_pool (pool w)) (count w) = Some l ∧ heap w !! l = Some v ∧
      new x0 y0 w =
        (Ok l, mkWorld (<[l := mkVector2D x0 y0 (_pool_index v)]> (heap w))
                       (mkVectorPool (_pool (pool w)) (count w + 1)))) ∨
  (count w = size w ∧
      new x0 y0 w =
        (Ok (fresh (dom (heap w))),
         mkWorld (<[fresh (dom (heap w)) := mkVector2D x0 y0 (Some (count w))]>
                    (heap w))
                 (mkVectorPool (arr_push (_pool (pool w)) (fresh (dom (heap w))))
                               (count w + 1)))).
Proof.
  intros [Hc Hs]. destruct (decide (count w = size w)) as [E|Hne].
  - right. split; [done|]. by apply new_grow.
  - left. destruct (Hs (count w)) as (l & Hl & [v Hv]); [lia|].
    exists l, v. repeat split; [lia | done | done |]. by apply new_reuse.
Qed.

Lemma wf_new w x0 y0 : wf w → wf (new x0 y0 w).2.
Proof.
  intros Hw. pose proof Hw as [Hc Hs].
  destruct (new_cases w x0 y0 Hw) as [(l & v & Hlt & Hl & Hv & ->)|[E ->]]; simpl.
  - split; [unfold count, size in *; simpl; lia|].
    intros i Hi. unfold size in *. simpl in *.
    destruct (Hs i Hi) as (l' & Hl' & Hv'). exists l'. split; [done|].
    rewrite lookup_insert. case_decide; [by eexists | done].
  - split.
    { unfold count, size, arr_push in *; simpl; rewrite length_app; simpl; lia. }
    intros i Hi. unfold size, arr_push in Hi. simpl in Hi.
    rewrite length_app in Hi. simpl in Hi. simpl.
    rewrite arr_get_push. case_decide as Hd.
    + eexists; split; [done|]. rewrite lookup_insert_eq. by eexists.
    + destruct (Hs i) as (l' & Hl' & Hv'); [unfold size; lia|].
      exists l'. split; [done|].
      rewrite lookup_insert. case_decide; [by eexists | done].
Qed.

Lemma indexed_new w x0 y0 : wf w → indexed w → indexed (new x0 y0 w).2.
Proof.
  intros Hw Hx.
  destruct (new_cases w x0 y0 Hw) as [(l & v & Hlt & Hl & Hv & ->)|[E ->]]; simpl.
  - apply (indexed_frame w); [done | done |]. by apply heap_le_components.
  - intros i l. simpl. rewrite arr_get_push. case_decide as Hd.
    + intros [= <-]. rewrite lookup_insert_eq. eexists; split; [done|].
      simpl. unfold size in E. congruence.
    + intros Hl. destruct (Hx _ _ Hl) as (v & Hv & Ei).
      destruct (heap_le_fresh (heap w) (mkVector2D x0 y0 (Some (count w))) _ _ Hv)
        as (v' & Hv' & E'). exists v'. split; [done | congruence].
Qed.

(** ** The constructor *)

Lemma constructor_loop_filled (m : nat) : ∀ n k w,
  0 ≤ k → k + Z.of_nat m = n → filled n k w →
  ∃ w', constructor_loop zero (seqZ k (Z.of_nat m)) w = (Ok tt, w') ∧
        filled n n w'.
Proof.
  induction m as [|m IH]; intros n k w Hk Hn Hf.
  - exists w. split; [reflexivity|]. assert (n = k) as -> by lia. exact Hf.
  - rewrite seqZ_cons by lia. simpl.
    replace (Z.pred (Z.of_nat (S m))) with (Z.of_nat m) by lia.
    destruct Hf as (Hs & Hc & Hf).
    set (l := fresh (dom (heap w))).
    set (w1 := mkWorld (<[l := mkVector2D zero zero (Some k)]> (heap w))
                 (mkVectorPool (<[Z.to_nat k := Some l]> (_pool (pool w)))
                               (_count (pool w)))).
    assert (Hin : 0 ≤ k < Z.of_nat (length (_pool (pool w)))).
    { unfold size in Hs. lia. }
    assert (Hf1 : filled n (Z.succ k) w1).
    { split; [|split].
      - unfold size, w1 in *. simpl. rewrite length_insert. done.
      - done.
      - intros i Hi. unfold w1. simpl. rewrite arr_get_insert by done. split.
        + intros Hik. case_decide as Hd.
          * subst i. exists l, (mkVector2D zero zero (Some k)).
            by rewrite lookup_insert_eq.
          * destruct (Hf i Hi) as [Hlo _].
            destruct Hlo as (l' & v' & Hl' & Hv' & Ei); [lia|].
            exists l', v'. split; [done|]. split; [|done].
            rewrite lookup_insert_ne; [done|].
            intros E. apply (is_fresh (dom (heap w))), elem_of_dom.
            fold l. rewrite E. eauto.
        + intros Hki. rewrite decide_False by lia. apply Hf; lia. }
    destruct (IH n (Z.succ k) w1) as (w' & Hrun & Hw'); [lia | lia | done |].
    exists w'. split; [|done].
    unfold bind, alloc, get_pool, gets, set_pool. simpl.
    rewrite arr_set_inside by done. exact Hrun.
Qed.

Lemma constructor_filled n w0 :
  0 ≤ n → ∃ w, constructor zero n w0 = (Ok tt, w) ∧ filled n n w.
Proof.
  intros Hn. unfold constructor, bind, set_count, set_pool. simpl.
  destruct (Z.ltb_spec n 0); [lia|]. simpl.
  replace (seqZ 0 n) with (seqZ 0 (Z.of_nat (Z.to_nat n)))
    by (f_equal; lia).
  eapply (constructor_loop_filled (Z.to_nat n) n 0); [done | lia |].
  split; [|split].
  - unfold size. simpl. rewrite length_replicate. lia.
  - done.
  - intros i Hi. split; [lia|]. intros _. simpl. unfold arr_get.
    case_match; [done|].
    destruct (replicate (Z.to_nat n) None !! Z.to_nat i) as [o|] eqn:E; [|done].
    apply lookup_replicate in E as [-> _]. done.
Qed.

Lemma constructor_negative n w0 :
  n < 0 → (constructor zero n w0).1 = Throw RangeError.
Proof.
  intros Hn. unfold constructor, bind, set_count, set_pool. simpl.
  destruct (Z.ltb_spec n 0); [done | lia].
Qed.

Lemma filled_wf n w : filled n n w → wf w ∧ indexed w.
Proof.
  intros (Hs & Hc & Hf). split; [split|].
  - pose proof (Zle_0_nat (length (_pool (pool w)))). unfold size in *. lia.
  - intros i Hi. destruct (Hf i) as [Hlo _]; [lia|].
    destruct Hlo as (l & v & Hl & Hv & _); [lia|]. eauto.
  - intros i l Hl. pose proof (arr_get_range _ _ _ Hl) as Hr.
    destruct (Hf i) as [Hlo _]; [lia|].
    destruct Hlo as (l' & v & Hl' & Hv & Ei); [unfold size in *; lia|].
    exists v. split; [congruence | done].
Qed.

Lemma constructor_inv n w0 w :
  constructor zero n w0 = (Ok tt, w) → wf w ∧ indexed w.
Proof.
  intros Hrun. destruct (Z.lt_ge_cases n 0) as [Hn|Hn].
  - pose proof (constructor_negative n w0 Hn) as E. by rewrite Hrun in E.
  - destruct (constructor_filled n w0 Hn) as (w' & Hrun' & Hf).
    rewrite Hrun in Hrun'. injection Hrun' as <-. by eapply filled_wf.
Qed.

(** ** The three constructors built on [new] *)

Lemma clone_frame w vector :
  pool (clone zero vector w).2 = pool (new zero zero w).2 ∧
  heap_le (heap (new zero zero w).2) (heap (clone zero vector w).2).
Proof.
  unfold clone, bind. destruct (new zero zero w) as [[r|err] w1]; simpl.
  - apply Vector2D_copy_frame.
  - split; [done | apply heap_le_refl].
Qed.

Lemma fromAngle_frame w angle :
  pool (fromAngle zero cos sin angle w).2 = pool (new zero zero w).2 ∧
  heap_le (heap (new zero zero w).2) (heap (fromAngle zero cos sin angle w).2).
Proof.
  unfold fromAngle, Vector2D_fromAngle, bind.
  destruct (new zero zero w) as [[r|err] w1]; simpl.
  - apply Vector2D_set_frame.
  - split; [done | apply heap_le_refl].
Qed.

Lemma fromObservablePoint_frame w point :
  pool (fromObservablePoint zero point w).2 = pool (new zero zero w).2 ∧
  heap_le (heap (new zero zero w).2) (heap (fromObservablePoint zero point w).2).
Proof.
  unfold fromObservablePoint, Vector2D_fromObservablePoint, bind.
  destruct (new zero zero w) as [[r|err] w1]; simpl.
  - apply Vector2D_set_frame.
  - split; [done | apply heap_le_refl].
Qed.

(** ** [clear_index] in a well-formed world *)

Lemma clear_index_move_wf w index :
  wf w → 0 ≤ index → index + 1 < count w →
  ∃ la lc va vc vc',
    arr_get (_pool (pool w)) index = Some la ∧
    arr_get (_pool (pool w)) (count w - 1) = Some lc ∧
    heap w !! la = Some va ∧
    heap w !! lc = Some vc ∧ x vc' = x vc ∧ y vc' = y vc ∧
    (la ≠ lc → vc' = vc) ∧
    clear_index index w =
      (Ok tt,
       mkWorld (<[lc := mkVector2D (x vc') (y vc') (Some index)]>
                  (<[la := mkVector2D (x va) (y va) None]> (heap w)))
               (mkVectorPool (<[Z.to_nat index := Some lc]> (_pool (pool w)))
                             (count w - 1))).
Proof.
  intros [Hc Hs] Hi Hlt.
  destruct (Hs index) as (la & Hla & [va Hva]); [lia|].
  destruct (Hs (count w - 1)) as (lc & Hlc & [vc Hvc]); [lia|].
  destruct (decide (la = lc)) as [E|Hne].
  - exists la, lc, va, vc, (mkVector2D (x va) (y va) None).
    assert (vc = va) as -> by congruence.
    repeat split; try done.
    apply clear_index_move; try done. subst lc. by rewrite lookup_insert_eq.
  - exists la, lc, va, vc, vc. repeat split; try done.
    apply clear_index_move; try done. by rewrite lookup_insert_ne.
Qed.

Lemma wf_clear_index w index : wf w → wf (clear_index index w).2.
Proof.
  intros Hw. pose proof Hw as [Hc Hs].
  destruct (decide (index < 0 ∨ count w ≤ index)) as [Ho|Hin].
  { by rewrite clear_index_outside. }
  destruct (decide (index + 1 = count w)) as [El|Hnl].
  { rewrite clear_index_last by lia. split; [unfold count, size in *; simpl; lia|].
    exact Hs. }
  destruct (clear_index_move_wf w index Hw) as
    (la & lc & va & vc & vc' & Hla & Hlc & Hva & Hvc & _ & _ & _ & ->); [lia..|].
  pose proof (arr_get_range _ _ _ Hla) as Hr. simpl. split.
  - unfold count, size in *. simpl. rewrite length_insert. lia.
  - intros i Hi. unfold size in Hi. simpl in Hi. rewrite length_insert in Hi.
    simpl. rewrite arr_get_insert by lia.
    assert (Hal : ∀ l, is_Some (heap w !! l) →
      is_Some (<[lc := mkVector2D (x vc') (y vc') (Some index)]>
                 (<[la := mkVector2D (x va) (y va) None]> (heap w)) !! l)).
    { intros l Hl. rewrite !lookup_insert. repeat case_decide; by eauto. }
    case_decide.
    + exists lc. split; [done|]. apply Hal. by eexists.
    + destruct (Hs i) as (l & Hl & Hv); [unfold size; lia|]. eauto.
Qed.

(** ** Steps *)

Lemma wf_step w (o : op num) : wf w → wf (step zero cos sin o w).
Proof.
  intros Hw. destruct o as [x0 y0|vector|angle|point| |index]; simpl.
  - by apply wf_new.
  - destruct (clone_frame w vector) as [Hp Hh].
    by apply (wf_frame (new zero zero w).2); [apply wf_new|..].
  - destruct (fromAngle_frame w angle) as [Hp Hh].
    by apply (wf_frame (new zero zero w).2); [apply wf_new|..].
  - destruct (fromObservablePoint_frame w point) as [Hp Hh].
    by apply (wf_frame (new zero zero w).2); [apply wf_new|..].
  - destruct Hw as [Hc Hs]. split; [|done].
    pose proof (Zle_0_nat (length (_pool (pool w)))).
    unfold count, size in *. simpl. lia.
  - by apply wf_clear_index.
Qed.

Lemma reachable_wf w : reachable zero cos sin w → wf w.
Proof.
  induction 1 as [w0 n w Hrun|w o Hr IH].
  - by destruct (constructor_inv _ _ _ Hrun).
  - by apply wf_step.
Qed.

Lemma size_step w (o : op num) : wf w → size w ≤ size (step zero cos sin o w).
Proof.
  intros Hw.
  assert (Hn : ∀ x0 y0, size w ≤ size (new x0 y0 w).2).
  { intros x0 y0. rewrite new_size. case_match; lia. }
  destruct o as [x0 y0|vector|angle|point| |index]; simpl.
  - apply Hn.
  - destruct (clone_frame w vector) as [Hp _]. unfold size at 2. rewrite Hp. apply Hn.
  - destruct (fromAngle_frame w angle) as [Hp _]. unfold size at 2. rewrite Hp. apply Hn.
  - destruct (fromObservablePoint_frame w point) as [Hp _].
    unfold size at 2. rewrite Hp. apply Hn.
  - done.
  - destruct (decide (index < 0 ∨ count w ≤ index)) as [Ho|Hin].
    { by rewrite clear_index_outside. }
    destruct (decide (index + 1 = count w)) as [El|Hnl].
    { by rewrite clear_index_last by lia. }
    destruct (clear_index_move_wf w index Hw) as
      (la & lc & va & vc & vc' & _ & _ & _ & _ & _ & _ & _ & ->); [lia..|].
    unfold size. simpl. rewrite length_insert. done.
Qed.

Lemma indexed_step w (o : op num) :
  wf w → indexed w → ¬ moves_last o w → indexed (step zero cos sin o w).
Proof.
  intros Hw Hx Hm. destruct o as [x0 y0|vector|angle|point| |index]; simpl.
  - by apply indexed_new.
  - destruct (clone_frame w vector) as [Hp Hh].
    apply (indexed_frame (new zero zero w).2); [by apply indexed_new | by rewrite Hp | done].
  - destruct (fromAngle_frame w angle) as [Hp Hh].
    apply (indexed_frame (new zero zero w).2); [by apply indexed_new | by rewrite Hp | done].
  - destruct (fromObservablePoint_frame w point) as [Hp Hh].
    apply (indexed_frame (new zero zero w).2); [by apply indexed_new | by rewrite Hp | done].
  - exact Hx.
  - simpl in Hm. destruct (decide (index < 0 ∨ count w ≤ index)) as [Ho|Hin].
    { by rewrite clear_index_outside. }
    rewrite clear_index_last by lia. exact Hx.
Qed.

Lemma reachable_unmoved_inv w :
  reachable_unmoved zero cos sin w → wf w ∧ indexed w.
Proof.
  induction 1 as [w0 n w Hrun|w o Hr [IHw IHx] Hm].
  - by eapply constructor_inv.
  - split; [by apply wf_step | by apply indexed_step].
Qed.

(** ** [clone] while every position has its own object *)

(** In a world where the array positions are indexed (so no object sits in
    two positions), the clone of an active vector is another object with the
    same components, and writing to the clone leaves the vector alone. *)
Lemma clone_of_indexed w i lv vv :
  wf w → indexed w → 0 ≤ i < count w →
  arr_get (_pool (pool w)) i = Some lv → heap w !! lv = Some vv →
  ∃ l w' v', clone zero lv w = (Ok l, w') ∧ l ≠ lv ∧
             heap w' !! l = Some v' ∧ x v' = x vv ∧ y v' = y vv ∧
             ∀ x0 y0, heap (Vector2D_set l x0 y0 w').2 !! lv = Some vv.
Proof.
  intros Hw Hx Hi Hlv Hvv.
  assert (Hgo : ∀ l idx, l ≠ lv →
    new zero zero w =
      (Ok l, mkWorld (<[l := mkVector2D zero zero idx]> (heap w))
                     (pool (new zero zero w).2)) →
    ∃ l w' v', clone zero lv w = (Ok l, w') ∧ l ≠ lv ∧
               heap w' !! l = Some v' ∧ x v' = x vv ∧ y v' = y vv ∧
               ∀ x0 y0, heap (Vector2D_set l x0 y0 w').2 !! lv = Some vv).
  { intros l idx Hne Hnew. unfold clone, bind. rewrite Hnew.
    unfold Vector2D_copy, Vector2D_set, bind, deref, store, ret. simpl.
    rewrite lookup_insert_ne, Hvv by done. simpl.
    rewrite lookup_insert_eq. simpl.
    eexists _, _, _. split; [reflexivity|]. split; [done|]. simpl.
    rewrite lookup_insert_eq. split; [done|]. split; [done|]. split; [done|].
    intros x0 y0. simpl. by rewrite !lookup_insert_ne. }
  destruct (new_cases w zero zero Hw) as [(l & v & Hlt & Hl & Hv & Hnew)|[E Hnew]].
  - apply (Hgo l (_pool_index v)); [|by rewrite Hnew].
    intros ->. destruct (Hx _ _ Hl) as (v1 & Hv1 & E1).
    destruct (Hx _ _ Hlv) as (v2 & Hv2 & E2).
    assert (Some (count w) = Some i) by congruence. simplify_eq. lia.
  - apply (Hgo (fresh (dom (heap w))) (Some (count w))); [|by rewrite Hnew].
    intros E'. apply (is_fresh (dom (heap w))), elem_of_dom.
    rewrite E'. eauto.
Qed.

(** * The claims *)

(** C1 (as the code has it): on a pool with no active vector, [clear_index]
    throws ['Index out of bound'] for every index and leaves the world as it
    was; the test [_count == 0] that would throw ['Pool is already cleared']
    comes second and is never the one that fires, in any world. *)
Theorem clear_index_on_empty_pool w index :
  count w = 0 →
  clear_index index w = (Throw IndexOutOfBound, w) ∧
  ∀ w' index', (clear_index index' w').1 ≠ Throw PoolAlreadyCleared.
Proof.
  intros Hc. split.
  - apply clear_index_outside. lia.
  - intros w' index'. run.
    destruct (Z.ltb_spec index' 0), (Z.geb_spec index' (count w')); simpl; try done.
    destruct (Z.eqb_spec (count w') 0); simpl; [lia|].
    repeat (case_match; simplify_eq/=); done.
Qed.

(** C7: [clear] returns, sets the active count to 0, and leaves the array
    (hence the capacity) and every object of the heap (hence all component
    values) as they were. *)
Theorem clear_resets_count_only w :
  ∃ w', clear w = (Ok tt, w') ∧
        count w' = 0 ∧ size w' = size w ∧
        _pool (pool w') = _pool (pool w) ∧ heap w' = heap w ∧
        ∀ i, slot w' i = slot w i.
Proof.
  eexists. split; [reflexivity|]. repeat split.
Qed.

(** C8: in every well-formed world (every world a pool can be in, by
    [reachable_wf]), [new x0 y0] returns a reference, the active count has
    grown by exactly one, and the referenced vector has components exactly
    [(x0, y0)]. *)
Theorem new_returns_initialised w x0 y0 :
  wf w →
  ∃ l w' v, new x0 y0 w = (Ok l, w') ∧
            count w' = count w + 1 ∧
            heap w' !! l = Some v ∧ x v = x0 ∧ y v = y0.
Proof.
  intros Hw.
  destruct (new_cases w x0 y0 Hw) as [(l & v & Hlt & Hl & Hv & ->)|[E ->]].
  - eexists _, _, _. split; [done|]. simpl.
    rewrite lookup_insert_eq. by repeat split.
  - eexists _, _, _. split; [done|]. simpl.
    rewrite lookup_insert_eq. by repeat split.
Qed.

(** C9: with [index < 0] or [index >= count], [clear_index] throws
    ['Index out of bound'] and the world (heap, array and count) is the one
    it was called in. *)
Theorem clear_index_out_of_range w index :
  index < 0 ∨ count w ≤ index →
  clear_index index w = (Throw IndexOutOfBound, w).
Proof. apply clear_index_outside. Qed.

(** C6: a sequence of [new] calls that keeps the active count within the
    capacity leaves the capacity unchanged, and a [new] called when the
    active count equals the capacity makes the capacity exactly one
    larger. *)
Theorem new_grows_by_one w (args : list (num * num)) w2 x0 y0 :
  (count w + Z.of_nat (length args) ≤ size w → size (news args w) = size w) ∧
  (count w2 = size w2 → size (new x0 y0 w2).2 = size w2 + 1).
Proof.
  split.
  - revert w. induction args as [|[x1 y1] args IH]; intros w Hle; [done|].
    change (news ((x1, y1) :: args) w) with (news args (new x1 y1 w).2).
    simpl in Hle. rewrite IH.
    + rewrite new_size. destruct (Z.ltb_spec (size w) (count w + 1)); lia.
    + rewrite new_size, new_count.
      destruct (Z.ltb_spec (size w) (count w + 1)); lia.
  - intros E. rewrite new_size.
    destruct (Z.ltb_spec (size w2) (count w2 + 1)); lia.
Qed.

(** C10: in every world reached from a constructed pool by any calls, the
    active count lies between 0 and the capacity, and no call, and no
    sequence of calls, makes the capacity smaller. *)
Theorem count_within_capacity w :
  reachable zero cos sin w →
  0 ≤ count w ≤ size w ∧
  (∀ o, size w ≤ size (step zero cos sin o w)) ∧
  (∀ os, size w ≤ size (steps zero cos sin os w)).
Proof.
  intros Hw%reachable_wf. split; [apply Hw|]. split.
  - intros o. by apply size_step.
  - intros os. revert w Hw. induction os as [|o os IH]; intros w Hw; [done|].
    simpl. etrans; [by apply (size_step w o)|]. apply IH. by apply wf_step.
Qed.

(** C4: in every well-formed world (every world a pool can be in, by
    [reachable_wf]), after [clear_index index] with [index + 1 < count] the
    array refers to one and the same object at position [index] and at the
    old last active position [count - 1]; the next [new x0 y0] returns that
    very object, so the live vector at position [index] then has components
    [(x0, y0)]. *)
Theorem release_then_new_aliases w index x0 y0 :
  wf w → 0 ≤ index → index + 1 < count w →
  ∃ l wr w' v,
    clear_index index w = (Ok tt, wr) ∧
    arr_get (_pool (pool wr)) index = Some l ∧
    arr_get (_pool (pool wr)) (count w - 1) = Some l ∧
    new x0 y0 wr = (Ok l, w') ∧
    index < count w' ∧
    arr_get (_pool (pool w')) index = Some l ∧
    slot w' index = Some v ∧ x v = x0 ∧ y v = y0.
Proof.
  intros Hw Hi Hlt.
  destruct (clear_index_move_wf w index Hw Hi Hlt) as
    (la & lc & va & vc & vc' & Hla & Hlc & Hva & Hvc & _ & _ & _ & Hrun).
  pose proof (arr_get_range _ _ _ Hla) as Hr.
  set (wr := mkWorld (<[lc := mkVector2D (x vc') (y vc') (Some index)]>
                        (<[la := mkVector2D (x va) (y va) None]> (heap w)))
               (mkVectorPool (<[Z.to_nat index := Some lc]> (_pool (pool w)))
                             (count w - 1))) in *.
  assert (Hidx : arr_get (_pool (pool wr)) index = Some lc).
  { simpl. by rewrite arr_get_insert, decide_True by lia. }
  assert (Hlast : arr_get (_pool (pool wr)) (count w - 1) = Some lc).
  { simpl. by rewrite arr_get_insert, decide_False by lia. }
  assert (Hobj : heap wr !! lc = Some (mkVector2D (x vc') (y vc') (Some index))).
  { simpl. by rewrite lookup_insert_eq. }
  assert (Hcr : count wr = count w - 1) by done.
  pose proof (new_reuse wr x0 y0 lc
                (mkVector2D (x vc') (y vc') (Some index))) as Hnew.
  rewrite Hcr in Hnew. specialize (Hnew Hlast Hobj).
  eexists lc, wr, _, (mkVector2D x0 y0 (Some index)).
  split; [done|]. split; [done|]. split; [done|].
  split; [exact Hnew|].
  simpl. split; [unfold count at 1; simpl; lia|]. split; [done|].
  unfold slot. simpl. rewrite arr_get_insert, decide_True by lia. simpl.
  by rewrite lookup_insert_eq.
Qed.

(** C2 (as amended): after the constructor and after any calls among [new],
    [clone], [fromAngle], [fromObservablePoint], [clear], and those calls of
    [clear_index] that throw or release the last active index, every array
    position, active or not, refers to an object whose [_pool_index] is
    that position. *)
Theorem unmoved_slots_indexed w :
  reachable_unmoved zero cos sin w →
  ∀ i, 0 ≤ i < size w → ∃ v, slot w i = Some v ∧ _pool_index v = Some i.
Proof.
  intros [[_ Hs] Hx]%reachable_unmoved_inv i Hi.
  destruct (Hs i Hi) as (l & Hl & _).
  destruct (Hx i l Hl) as (v & Hv & Ei).
  exists v. split; [|done]. unfold slot. rewrite Hl. done.
Qed.

End Properties.

(** * The concrete run *)

Lemma fresh_pool_constructed : constructor 0 2 empty_world = (Ok tt, fresh_pool).
Proof. reflexivity. Qed.

Lemma three_live_unmoved : reachable_unmoved 0 (λ _, 1) (λ _, 0) three_live.
Proof.
  repeat (apply unmoved_step; [|by intros []]).
  exact (unmoved_constructed _ _ _ _ _ _ fresh_pool_constructed).
Qed.

Lemma three_live_reachable : reachable 0 (λ _, 1) (λ _, 0) three_live.
Proof.
  repeat apply reachable_step.
  exact (reachable_constructed _ _ _ _ _ _ fresh_pool_constructed).
Qed.

Lemma three_live_wf : wf three_live.
Proof. exact (reachable_wf _ _ _ _ three_live_reachable). Qed.

Lemma fresh_pool_wf : wf fresh_pool.
Proof. exact (proj1 (constructor_inv _ _ _ _ fresh_pool_constructed)). Qed.

(** The array and the objects of the run, as computed. *)
Example three_live_slots :
  _pool (pool three_live) = [Some 0%nat; Some 1%nat; Some 2%nat] ∧
  count three_live = 3 ∧
  slot three_live 0 = Some (mkVector2D 1 1 (Some 0)) ∧
  slot three_live 1 = Some (mkVector2D 2 2 (Some 1)) ∧
  slot three_live 2 = Some (mkVector2D 3 3 (Some 2)).
Proof. vm_compute. done. Qed.

(** C3 (the code at the failing inputs): [clear_index(0)] on A, B, C copies
    the reference to C into position 0 and leaves position 2 referring to C
    as well, so A is in no position any more and the vacated position 2 reads
    C with [_pool_index = 0]; after the next [new(4, 4)] the object at
    position 0 is also the last active one, and a second [clear_index(0)]
    leaves the [_pool_index] of the object it moved out at 0 instead of
    [undefined]. *)
Theorem clear_index_copies_without_exchange :
  (clear_index 0 three_live).1 = Ok tt ∧
  _pool (pool released) = [Some 2%nat; Some 1%nat; Some 2%nat] ∧
  count released = 2 ∧
  slot released 2 = Some (mkVector2D 3 3 (Some 0)) ∧
  heap released !! 0%nat = Some (mkVector2D 1 1 None) ∧
  count realiased = 3 ∧
  arr_get (_pool (pool realiased)) 0 = Some 2%nat ∧
  slot realiased 2 = Some (mkVector2D 4 4 (Some 0)) ∧
  (clear_index 0 realiased).1 = Ok tt ∧
  heap (clear_index 0 realiased).2 !! 2%nat = Some (mkVector2D 4 4 (Some 0)).
Proof. vm_compute. done. Qed.

(** C5 (the code at the failing input): after [clear_index(0)] on A, B, C the
    live vector at position 0 is C = (3,3), at location 2.  [clone] of it
    returns location 2 again, and that one object now has components
    (0,0): the clone is the vector itself, and the vector has lost its
    values. *)
Theorem clone_returns_its_argument :
  arr_get (_pool (pool released)) 0 = Some 2%nat ∧
  0 < count released ∧
  heap released !! 2%nat = Some (mkVector2D 3 3 (Some 0)) ∧
  (clone 0 2%nat released).1 = Ok 2%nat ∧
  heap (clone 0 2%nat released).2 !! 2%nat = Some (mkVector2D 0 0 (Some 0)).
Proof. vm_compute. done. Qed.

(** C2 (counterexample): right after the constructor no vector is active,
    and the object at array position 0 has [_pool_index = 0]: the
    back-reference of a free position is set, not unset. *)
Lemma constructed_free_slot_is_indexed :
  constructor 0 2 empty_world = (Ok tt, fresh_pool) ∧
  ¬ (∀ i v, slot fresh_pool i = Some v →
        (i < count fresh_pool → _pool_index v = Some i) ∧
        (count fresh_pool ≤ i → _pool_index v = None)).
Proof.
  split; [reflexivity|]. intros H.
  destruct (H 0 (mkVector2D 0 0 (Some 0)) eq_refl) as [_ Hfree].
  assert (Hc : count fresh_pool ≤ 0) by (change (count fresh_pool) with 0; lia).
  discriminate (Hfree Hc).
Qed.

(** ** Instances of the theorems on the concrete run *)

Lemma clear_index_on_empty_pool_witness :
  count fresh_pool = 0 ∧
  clear_index 0 fresh_pool = (Throw IndexOutOfBound, fresh_pool) ∧
  ∀ (w' : world Z) index', (clear_index index' w').1 ≠ Throw PoolAlreadyCleared.
Proof.
  split; [reflexivity|].
  apply (clear_index_on_empty_pool fresh_pool 0). reflexivity.
Defined.

Lemma unmoved_slots_indexed_witness :
  reachable_unmoved 0 (λ _, 1) (λ _, 0) three_live ∧
  ∃ v, slot three_live 2 = Some v ∧ _pool_index v = Some 2.
Proof.
  split; [exact three_live_unmoved|].
  apply (unmoved_slots_indexed 0 (λ _, 1) (λ _, 0) three_live three_live_unmoved 2).
  change (0 ≤ 2 < 3). lia.
Defined.

Lemma release_then_new_aliases_witness :
  wf three_live ∧ 0 ≤ 0 ∧ 0 + 1 < count three_live ∧
  ∃ l wr w' v,
    clear_index 0 three_live = (Ok tt, wr) ∧
    arr_get (_pool (pool wr)) 0 = Some l ∧
    arr_get (_pool (pool wr)) (count three_live - 1) = Some l ∧
    new 4 4 wr = (Ok l, w') ∧
    0 < count w' ∧
    arr_get (_pool (pool w')) 0 = Some l ∧
    slot w' 0 = Some v ∧ x v = 4 ∧ y v = 4.
Proof.
  assert (H0 : 0 ≤ 0) by lia.
  assert (H1 : 0 + 1 < count three_live) by (vm_compute; reflexivity).
  split; [exact three_live_wf|]. split; [exact H0|]. split; [exact H1|].
  exact (release_then_new_aliases three_live 0 4 4 three_live_wf H0 H1).
Defined.

Lemma new_grows_by_one_witness :
  count fresh_pool + Z.of_nat (length [(1, 1); (2, 2)]) ≤ size fresh_pool ∧
  count two_live = size two_live ∧
  size (news [(1, 1); (2, 2)] fresh_pool) = size fresh_pool ∧
  size (new 3 3 two_live).2 = size two_live + 1.
Proof.
  assert (H0 : count fresh_pool + Z.of_nat (length [(1, 1); (2, 2)])
               ≤ size fresh_pool) by (change (0 + 2 ≤ 2); lia).
  assert (H1 : count two_live = size two_live) by (vm_compute; reflexivity).
  split; [exact H0|]. split; [exact H1|].
  destruct (new_grows_by_one fresh_pool [(1, 1); (2, 2)] two_live 3 3) as [Ha Hb].
  split; [exact (Ha H0) | exact (Hb H1)].
Defined.

Lemma new_returns_initialised_witness :
  wf fresh_pool ∧
  ∃ l w' v, new 7 8 fresh_pool = (Ok l, w') ∧
            count w' = count fresh_pool + 1 ∧
            heap w' !! l = Some v ∧ x v = 7 ∧ y v = 8.
Proof.
  split; [exact fresh_pool_wf|].
  exact (new_returns_initialised fresh_pool 7 8 fresh_pool_wf).
Defined.

Lemma clear_index_out_of_range_witness :
  (3 < 0 ∨ count three_live ≤ 3) ∧
  clear_index 3 three_live = (Throw IndexOutOfBound, three_live).
Proof.
  assert (H : 3 < 0 ∨ count three_live ≤ 3) by (right; change (3 ≤ 3); lia).
  split; [exact H|]. exact (clear_index_out_of_range three_live 3 H).
Defined.

Lemma count_within_capacity_witness :
  reachable 0 (λ _, 1) (λ _, 0) three_live ∧
  0 ≤ count three_live ≤ size three_live ∧
  (∀ o, size three_live ≤ size (step 0 (λ _, 1) (λ _, 0) o three_live)) ∧
  (∀ os, size three_live ≤ size (steps 0 (λ _, 1) (λ _, 0) os three_live)).
Proof.
  split; [exact three_live_reachable|].
  exact (count_within_capacity 0 (λ _, 1) (λ _, 0) three_live three_live_reachable).
Defined.

(** * Further properties of the pool *)

Section MoreProperties.

Context {num : Type} (zero : num) (cos sin : num → num).

Implicit Types (w : world num) (a : list (option loc)) (i j index : Z)
  (l r : loc) (v : Vector2D num) (h : gmap loc (Vector2D num)).

(** ** Helper facts *)

(** In an indexed world an object sits in at most one array position. *)
Lemma indexed_position_unique w i j l :
  indexed w →
  arr_get (_pool (pool w)) i = Some l →
  arr_get (_pool (pool w)) j = Some l → i = j.
Proof.
  intros Hx Hi Hj.
  destruct (Hx _ _ Hi) as (v1 & Hv1 & E1).
  destruct (Hx _ _ Hj) as (v2 & Hv2 & E2).
  assert (Some i = Some j) by congruence. by simplify_eq.
Qed.

(** Where [new] puts the vector it returns. *)
Lemma new_result w x0 y0 :
  wf w →
  ∃ l w' idx, new x0 y0 w = (Ok l, w') ∧
              arr_get (_pool (pool w')) (count w) = Some l ∧
              heap w' !! l = Some (mkVector2D x0 y0 idx) ∧
              count w' = count w + 1.
Proof.
  intros Hw.
  destruct (new_cases w x0 y0 Hw) as [(l & v & Hlt & Hl & Hv & ->)|[E ->]].
  - eexists _, _, _. split; [done|]. simpl. by rewrite lookup_insert_eq.
  - eexists _, _, _. split; [done|]. simpl.
    rewrite arr_get_push, decide_True by done. by rewrite lookup_insert_eq.
Qed.

(** Setting the components of the vector just obtained from [new] gives the
    world that [new] with those components gives. *)
Lemma set_after_new w x0 y0 x1 y1 :
  wf w →
  bind (new x0 y0) (λ r, Vector2D_set r x1 y1) w = new x1 y1 w.
Proof.
  intros Hw. unfold bind at 1.
  destruct (new_cases w x0 y0 Hw) as [(l & v & Hlt & Hl & Hv & ->)|[E ->]].
  - rewrite (new_reuse w x1 y1 l v Hl Hv).
    unfold Vector2D_set, bind, deref, store, ret. simpl.
    rewrite lookup_insert_eq. simpl. by rewrite insert_insert_eq.
  - rewrite (new_grow w x1 y1 E).
    unfold Vector2D_set, bind, deref, store, ret. simpl.
    rewrite lookup_insert_eq. simpl. by rewrite insert_insert_eq.
Qed.

(** ** The constructor *)

(** The loop of the constructor before iteration [k], started in a world
    whose heap was [h0]: the objects of [h0] are as they were, positions below
    [k] hold new zero vectors carrying their position, the rest are holes. *)
Local Abbreviation built h0 n k w :=
  (size w = n ∧ count w = 0 ∧
   (∀ l v, h0 !! l = Some v → heap w !! l = Some v) ∧
   ∀ i, 0 ≤ i →
     (i < k → ∃ l, arr_get (_pool (pool w)) i = Some l ∧
                   heap w !! l = Some (mkVector2D zero zero (Some i)) ∧
                   h0 !! l = None) ∧
     (k ≤ i → arr_get (_pool (pool w)) i = None)).




(** ** [new] *)

(** X2: in a well-formed world [new] either recycles or allocates, never
    both.  With an inactive position left it returns the object already at
    position [count], the array is untouched and no object is created.
    With none left it creates exactly one object, which the heap did not
    hold, appends it to the array, and gives it [_pool_index = count]. *)
Theorem new_recycles_or_allocates w x0 y0 :
  wf w →
  ∃ l w', new x0 y0 w = (Ok l, w') ∧
    (count w < size w →
       arr_get (_pool (pool w)) (count w) = Some l ∧
       _pool (pool w') = _pool (pool w) ∧
       dom (heap w') = dom (heap w)) ∧
    (count w = size w →
       heap w !! l = None ∧
       _pool (pool w') = _pool (pool w) ++ [Some l] ∧
       dom (heap w') = {[l]} ∪ dom (heap w) ∧
       heap w' !! l = Some (mkVector2D x0 y0 (Some (count w)))).
Proof.
  intros Hw.
  destruct (new_cases w x0 y0 Hw) as [(l & v & Hlt & Hl & Hv & ->)|[E ->]].
  - eexists _, _. split; [done|]. simpl. split; [|lia].
    intros _. split; [done|]. split; [done|].
    apply dom_insert_lookup_L. by eexists.
  - eexists _, _. split; [done|]. simpl. split; [lia|].
    intros _. split; [|split; [done|split]].
    + apply not_elem_of_dom, is_fresh.
    + apply dom_insert_L.
    + by rewrite lookup_insert_eq.
Qed.

(** X3: while no object sits in two array positions, [new] changes what is
    read at position [count] only: every other position, active or not,
    reads the same vector after the call as before. *)
Theorem new_keeps_other_vectors w x0 y0 i :
  wf w → indexed w → i ≠ count w →
  slot (new x0 y0 w).2 i = slot w i.
Proof.
  intros Hw Hx Hi. unfold slot.
  destruct (new_cases w x0 y0 Hw) as [(l & v & Hlt & Hl & Hv & ->)|[E ->]]; simpl.
  - destruct (arr_get (_pool (pool w)) i) as [l'|] eqn:Hl'; [|done]. simpl.
    rewrite lookup_insert_ne; [done|]. intros <-.
    by apply Hi, (indexed_position_unique w i (count w) l).
  - rewrite arr_get_push, decide_False by (unfold size in E; lia).
    destruct (arr_get (_pool (pool w)) i) as [l'|] eqn:Hl'; [|done]. simpl.
    rewrite lookup_insert_ne; [done|]. intros E'.
    destruct (Hx _ _ Hl') as (v' & Hv' & _).
    apply (is_fresh (dom (heap w))), elem_of_dom. rewrite E'. eauto.
Qed.

(** X4: two successive calls of [new], in a world where no object sits in two
    positions, return two different objects, and after the second call the
    first vector still has the components it was given. *)
Theorem successive_news_are_distinct w x1 y1 x2 y2 :
  wf w → indexed w →
  ∃ l1 w1 l2 w2 v1,
    new x1 y1 w = (Ok l1, w1) ∧ new x2 y2 w1 = (Ok l2, w2) ∧
    l1 ≠ l2 ∧
    heap w2 !! l1 = Some v1 ∧ x v1 = x1 ∧ y v1 = y1.
Proof.
  intros Hw Hx.
  destruct (new_result w x1 y1 Hw) as (l1 & w1 & idx1 & Hn1 & Hp1 & Hv1 & Hc1).
  assert (Hw1 : wf w1) by (pose proof (wf_new w x1 y1 Hw) as H; by rewrite Hn1 in H).
  assert (Hx1 : indexed w1)
    by (pose proof (indexed_new w x1 y1 Hw Hx) as H; by rewrite Hn1 in H).
  exists l1, w1.
  destruct (new_cases w1 x2 y2 Hw1) as [(l2 & v & Hlt & Hl & Hv & Hn2)|[E Hn2]].
  - assert (Hne : l1 ≠ l2).
    { intros ->. pose proof (indexed_position_unique w1 _ _ _ Hx1 Hp1 Hl). lia. }
    eexists l2, _, (mkVector2D x1 y1 idx1).
    split; [done|]. split; [exact Hn2|]. split; [done|]. simpl.
    by rewrite lookup_insert_ne.
  - assert (Hne : l1 ≠ fresh (dom (heap w1))).
    { intros E'. apply (is_fresh (dom (heap w1))), elem_of_dom.
      rewrite <- E', Hv1. eauto. }
    eexists _, _, (mkVector2D x1 y1 idx1).
    split; [done|]. split; [exact Hn2|]. split; [done|]. simpl.
    by rewrite lookup_insert_ne.
Qed.

(** ** The constructors built on [new] *)

(** X5: in a well-formed world [fromAngle(angle)] returns the same reference
    and leaves the same world as [new(cos(angle), sin(angle))]; the
    intermediate [(0, 0)] written by [this.new()] is not observable. *)
Theorem fromAngle_is_new_of_cos_sin w angle :
  wf w →
  fromAngle zero cos sin angle w = new (cos angle) (sin angle) w.
Proof. intros Hw. by apply (set_after_new w zero zero). Qed.

(** X6: in a well-formed world [fromObservablePoint(point)] returns the same
    reference and leaves the same world as [new(point.x, point.y)]. *)
Theorem fromObservablePoint_is_new_of_point w (point : ObservablePoint num) :
  wf w →
  fromObservablePoint zero point w = new (point_x point) (point_y point) w.
Proof. intros Hw. by apply (set_after_new w zero zero). Qed.

(** X7: in a well-formed world, [clone(vector)] of an existing vector that is
    not the object waiting at position [count] returns the same reference
    and leaves the same world as [new(vector.x, vector.y)]. *)
Theorem clone_is_new_of_components w vector v :
  wf w → heap w !! vector = Some v →
  arr_get (_pool (pool w)) (count w) ≠ Some vector →
  clone zero vector w = new (x v) (y v) w.
Proof.
  intros Hw Hv Hnext.
  rewrite <- (set_after_new w zero zero (x v) (y v) Hw).
  unfold clone, bind.
  destruct (new_cases w zero zero Hw) as [(l & v0 & Hlt & Hl & Hv0 & ->)|[E ->]].
  - unfold Vector2D_copy, bind, deref. simpl.
    rewrite lookup_insert_ne, Hv; [done|]. intros ->. by apply Hnext.
  - unfold Vector2D_copy, bind, deref. simpl.
    rewrite lookup_insert_ne, Hv; [done|]. intros E'.
    apply (is_fresh (dom (heap w))), elem_of_dom. rewrite E'. eauto.
Qed.

(** X8: [clone] of the object waiting at position [count] (a reference kept
    across [clear], or one left behind by [clear_index]) returns that very
    object with components [(0, 0)]: the call behaves as [new(0, 0)], and the
    components the vector had are lost. *)
Theorem clone_of_next_recycled_is_zero w vector :
  wf w → arr_get (_pool (pool w)) (count w) = Some vector →
  clone zero vector w = new zero zero w ∧
  ∃ w' idx, clone zero vector w = (Ok vector, w') ∧
            heap w' !! vector = Some (mkVector2D zero zero idx).
Proof.
  intros Hw Hnext. destruct Hw as [Hc Hs].
  destruct (Hs (count w)) as (l & Hl & [v Hv]).
  { pose proof (arr_get_range _ _ _ Hnext). unfold size. lia. }
  assert (l = vector) as -> by congruence.
  assert (Hclone : clone zero vector w = new zero zero w).
  { unfold clone, bind. rewrite (new_reuse w zero zero vector v Hl Hv).
    unfold Vector2D_copy, Vector2D_set, bind, deref, store, ret. simpl.
    repeat (rewrite lookup_insert_eq; simpl). by rewrite insert_insert_eq. }
  split; [exact Hclone|]. rewrite Hclone, (new_reuse w zero zero vector v Hl Hv).
  eexists _, _. split; [done|]. simpl. by rewrite lookup_insert_eq.
Qed.

(** ** [clear_index] *)

(** X9: [clear_index] never changes a component: in any world, whatever the
    index and whether the call returns or throws, every vector is still
    there afterwards with the same [x] and [y]. *)
Theorem clear_index_keeps_components w index l v :
  heap w !! l = Some v →
  ∃ v', heap (clear_index index w).2 !! l = Some v' ∧ x v' = x v ∧ y v' = y v.
Proof.
  intros Hv.
  unfold clear_index, pool_obj, set_pool_index, get_pool, bind, gets, set_count,
    set_pool, deref, store, ret, throw. simpl.
  repeat (case_match; simplify_eq/=); eauto;
  rewrite ?lookup_insert; repeat case_decide; simplify_eq/=; eauto;
  match goal with
  | H : <[_ := _]> _ !! _ = Some _ |- _ =>
      rewrite lookup_insert in H; case_decide; simplify_eq/=; eauto
  end.
Qed.

(** X10: releasing the last active index and calling [new] gives the object
    back: [clear_index(count - 1)] changes nothing but the count, and the
    next [new(x, y)] returns the object that was released, at the same
    position, with the array and the count as before the release. *)
Theorem release_last_then_new_restores w index x0 y0 :
  wf w → 0 ≤ index → index + 1 = count w →
  ∃ l wr w',
    arr_get (_pool (pool w)) index = Some l ∧
    clear_index index w = (Ok tt, wr) ∧
    heap wr = heap w ∧ _pool (pool wr) = _pool (pool w) ∧
    count wr = count w - 1 ∧
    new x0 y0 wr = (Ok l, w') ∧
    pool w' = pool w ∧
    slot w' index = (λ v, mkVector2D x0 y0 (_pool_index v)) <$> slot w index.
Proof.
  intros Hw Hi Hc. pose proof Hw as [Hb Hs].
  destruct (Hs index) as (l & Hl & [v Hv]); [lia|].
  set (wr := mkWorld (heap w) (mkVectorPool (_pool (pool w)) (count w - 1))).
  assert (Hcr : count wr = index) by (unfold count at 1; simpl; lia).
  pose proof (new_reuse wr x0 y0 l v) as Hnew. rewrite Hcr in Hnew.
  specialize (Hnew Hl Hv).
  eexists l, wr, _. split; [done|].
  split; [by apply clear_index_last|]. split; [done|]. split; [done|].
  split; [done|]. split; [exact Hnew|]. simpl. split.
  - destruct w as [hw [pw cw]]. unfold count in *. simpl in *. f_equal. lia.
  - unfold slot. simpl. rewrite Hl. simpl. by rewrite lookup_insert_eq, Hv.
Qed.


(** ** Sequences of [new] *)

(** X12: after any number of calls of [new], started with the count within
    the capacity, the count has grown by the number of calls and the
    capacity is the larger of the old capacity and the new count. *)
Theorem news_count_and_capacity w (args : list (num * num)) :
  count w ≤ size w →
  count (news args w) = count w + Z.of_nat (length args) ∧
  size (news args w) = Z.max (size w) (count w + Z.of_nat (length args)).
Proof.
  revert w. induction args as [|[x1 y1] args IH]; intros w Hle.
  - simpl. lia.
  - change (news ((x1, y1) :: args) w) with (news args (new x1 y1 w).2).
    pose proof (new_size w x1 y1) as Hs. pose proof (new_count w x1 y1) as Hc.
    destruct (Z.ltb_spec (size w) (count w + 1));
      (destruct (IH (new x1 y1 w).2) as [IHc IHs]; [lia|]);
      rewrite IHc, IHs, Hs, Hc; simpl length; lia.
Qed.

(** X13: calls of [new] that stay within the capacity create no object and
    leave the array as it is: the vectors handed out are the ones already in
    the pool. *)
Theorem news_within_capacity_allocate_nothing w (args : list (num * num)) :
  wf w → count w + Z.of_nat (length args) ≤ size w →
  dom (heap (news args w)) = dom (heap w) ∧
  _pool (pool (news args w)) = _pool (pool w).
Proof.
  revert w. induction args as [|[x1 y1] args IH]; intros w Hw Hle; [done|].
  change (news ((x1, y1) :: args) w) with (news args (new x1 y1 w).2).
  simpl length in Hle.
  pose proof (wf_new w x1 y1 Hw) as Hw1.
  pose proof (new_size w x1 y1) as Hs. pose proof (new_count w x1 y1) as Hc.
  destruct (Z.ltb_spec (size w) (count w + 1)); [lia|].
  destruct (IH (new x1 y1 w).2 Hw1) as [IHd IHp]; [lia|].
  rewrite IHd, IHp.
  destruct (new_cases w x1 y1 Hw) as [(l & v & Hlt & Hl & Hv & ->)|[E _]]; [|lia].
  simpl. split; [|done]. apply dom_insert_lookup_L. by eexists.
Qed.

(** ** Invariants of the pool *)

(** X14: as long as [clear_index] has not moved the last active reference, no
    object sits in two array positions: the references handed out for
    different positions are different objects. *)
Theorem unmoved_positions_hold_distinct_objects w i j l :
  reachable_unmoved zero cos sin w →
  arr_get (_pool (pool w)) i = Some l →
  arr_get (_pool (pool w)) j = Some l → i = j.
Proof.
  intros [_ Hx]%reachable_unmoved_inv. by apply indexed_position_unique.
Qed.

(** X15: in every world a pool can be in, the constructors of vectors never
    throw: [new], [fromAngle] and [fromObservablePoint] always return a
    reference, and so does [clone] of a vector that exists. *)
Theorem new_family_never_throws w :
  reachable zero cos sin w →
  (∀ x0 y0, ∃ l, (new x0 y0 w).1 = Ok l) ∧
  (∀ angle, ∃ l, (fromAngle zero cos sin angle w).1 = Ok l) ∧
  (∀ point, ∃ l, (fromObservablePoint zero point w).1 = Ok l) ∧
  (∀ vector, is_Some (heap w !! vector) → ∃ l, (clone zero vector w).1 = Ok l).
Proof.
  intros Hw%reachable_wf.
  assert (Hnew : ∀ x0 y0, ∃ l, (new x0 y0 w).1 = Ok l).
  { intros x0 y0.
    destruct (new_result w x0 y0 Hw) as (l & w' & idx & -> & _). by exists l. }
  split; [exact Hnew|]. split; [|split].
  - intros angle. unfold fromAngle, Vector2D_fromAngle.
    rewrite (set_after_new w zero zero _ _ Hw). apply Hnew.
  - intros point. unfold fromObservablePoint, Vector2D_fromObservablePoint.
    rewrite (set_after_new w zero zero _ _ Hw). apply Hnew.
  - intros vector [v Hv]. unfold clone, bind.
    destruct (new_result w zero zero Hw) as (l & w' & idx & Hn & _ & Hl & _).
    assert (Hv' : is_Some (heap w' !! vector)).
    { destruct (new_cases w zero zero Hw) as
        [(l0 & v0 & _ & _ & _ & Hn')|[_ Hn']]; rewrite Hn' in Hn;
        simplify_eq; simpl; rewrite lookup_insert; case_decide; eauto. }
    rewrite Hn. destruct Hv' as [v' Hv'].
    unfold Vector2D_copy, Vector2D_set, bind, deref, store, ret.
    rewrite Hv'. simpl. rewrite Hl. simpl. by exists l.
Qed.

End MoreProperties.

(** ** Instances of the further properties on the concrete run *)

Lemma three_live_indexed : indexed three_live.
Proof. exact (proj2 (reachable_unmoved_inv _ _ _ _ three_live_unmoved)). Qed.

Lemma fresh_pool_indexed : indexed fresh_pool.
Proof. exact (proj2 (constructor_inv _ _ _ _ fresh_pool_constructed)). Qed.


Lemma new_recycles_or_allocates_witness :
  wf fresh_pool ∧
  ∃ l w', new 7 8 fresh_pool = (Ok l, w') ∧
    (count fresh_pool < size fresh_pool →
       arr_get (_pool (pool fresh_pool)) (count fresh_pool) = Some l ∧
       _pool (pool w') = _pool (pool fresh_pool) ∧
       dom (heap w') = dom (heap fresh_pool)) ∧
    (count fresh_pool = size fresh_pool →
       heap fresh_pool !! l = None ∧
       _pool (pool w') = _pool (pool fresh_pool) ++ [Some l] ∧
       dom (heap w') = {[l]} ∪ dom (heap fresh_pool) ∧
       heap w' !! l = Some (mkVector2D 7 8 (Some (count fresh_pool)))).
Proof.
  split; [exact fresh_pool_wf|].
  exact (new_recycles_or_allocates fresh_pool 7 8 fresh_pool_wf).
Defined.

Lemma new_keeps_other_vectors_witness :
  wf three_live ∧ indexed three_live ∧ 1 ≠ count three_live ∧
  slot (new 7 8 three_live).2 1 = slot three_live 1.
Proof.
  assert (H : 1 ≠ count three_live) by (change (1 ≠ 3); lia).
  split; [exact three_live_wf|]. split; [exact three_live_indexed|].
  split; [exact H|].
  exact (new_keeps_other_vectors three_live 7 8 1
           three_live_wf three_live_indexed H).
Defined.

Lemma successive_news_are_distinct_witness :
  wf fresh_pool ∧ indexed fresh_pool ∧
  ∃ l1 w1 l2 w2 v1,
    new 1 2 fresh_pool = (Ok l1, w1) ∧ new 3 4 w1 = (Ok l2, w2) ∧
    l1 ≠ l2 ∧
    heap w2 !! l1 = Some v1 ∧ x v1 = 1 ∧ y v1 = 2.
Proof.
  split; [exact fresh_pool_wf|]. split; [exact fresh_pool_indexed|].
  exact (successive_news_are_distinct fresh_pool 1 2 3 4
           fresh_pool_wf fresh_pool_indexed).
Defined.

Lemma fromAngle_is_new_of_cos_sin_witness :
  wf three_live ∧
  fromAngle 0 (λ _, 1) (λ _, 0) 5 three_live = new 1 0 three_live.
Proof.
  split; [exact three_live_wf|].
  exact (fromAngle_is_new_of_cos_sin 0 (λ _, 1) (λ _, 0) three_live 5 three_live_wf).
Defined.

Lemma fromObservablePoint_is_new_of_point_witness :
  wf three_live ∧
  fromObservablePoint 0 (mkPoint 5 6) three_live = new 5 6 three_live.
Proof.
  split; [exact three_live_wf|].
  exact (fromObservablePoint_is_new_of_point 0 three_live (mkPoint 5 6) three_live_wf).
Defined.

Lemma clone_is_new_of_components_witness :
  wf three_live ∧
  heap three_live !! 0%nat = Some (mkVector2D 1 1 (Some 0)) ∧
  arr_get (_pool (pool three_live)) (count three_live) ≠ Some 0%nat ∧
  clone 0 0%nat three_live = new 1 1 three_live.
Proof.
  assert (H1 : heap three_live !! 0%nat = Some (mkVector2D 1 1 (Some 0)))
    by reflexivity.
  assert (H2 : arr_get (_pool (pool three_live)) (count three_live) ≠ Some 0%nat)
    by (change (None ≠ Some 0%nat); discriminate).
  split; [exact three_live_wf|]. split; [exact H1|]. split; [exact H2|].
  exact (clone_is_new_of_components 0 three_live 0%nat _ three_live_wf H1 H2).
Defined.

Lemma clone_of_next_recycled_is_zero_witness :
  wf released ∧
  arr_get (_pool (pool released)) (count released) = Some 2%nat ∧
  clone 0 2%nat released = new 0 0 released ∧
  ∃ w' idx, clone 0 2%nat released = (Ok 2%nat, w') ∧
            heap w' !! 2%nat = Some (mkVector2D 0 0 idx).
Proof.
  assert (Hw : wf released).
  { apply (wf_step 0 (λ _, 1) (λ _, 0) three_live (OpClearIndex 0)).
    exact three_live_wf. }
  assert (H : arr_get (_pool (pool released)) (count released) = Some 2%nat)
    by reflexivity.
  split; [exact Hw|]. split; [exact H|].
  exact (clone_of_next_recycled_is_zero 0 released 2%nat Hw H).
Defined.

Lemma clear_index_keeps_components_witness :
  heap three_live !! 2%nat = Some (mkVector2D 3 3 (Some 2)) ∧
  ∃ v', heap (clear_index 0 three_live).2 !! 2%nat = Some v' ∧
        x v' = 3 ∧ y v' = 3.
Proof.
  assert (H : heap three_live !! 2%nat = Some (mkVector2D 3 3 (Some 2)))
    by reflexivity.
  split; [exact H|].
  exact (clear_index_keeps_components three_live 0 2%nat _ H).
Defined.

Lemma release_last_then_new_restores_witness :
  wf three_live ∧ 0 ≤ 2 ∧ 2 + 1 = count three_live ∧
  ∃ l wr w',
    arr_get (_pool (pool three_live)) 2 = Some l ∧
    clear_index 2 three_live = (Ok tt, wr) ∧
    heap wr = heap three_live ∧ _pool (pool wr) = _pool (pool three_live) ∧
    count wr = count three_live - 1 ∧
    new 7 8 wr = (Ok l, w') ∧
    pool w' = pool three_live ∧
    slot w' 2 = (λ v, mkVector2D 7 8 (_pool_index v)) <$> slot three_live 2.
Proof.
  assert (H0 : 0 ≤ 2) by lia.
  assert (H1 : 2 + 1 = count three_live) by reflexivity.
  split; [exact three_live_wf|]. split; [exact H0|]. split; [exact H1|].
  exact (release_last_then_new_restores three_live 2 7 8 three_live_wf H0 H1).
Defined.


Lemma news_count_and_capacity_witness :
  count two_live ≤ size two_live ∧
  count (news [(3, 3); (4, 4)] two_live) =
    count two_live + Z.of_nat (length [(3, 3); (4, 4)]) ∧
  size (news [(3, 3); (4, 4)] two_live) =
    Z.max (size two_live) (count two_live + Z.of_nat (length [(3, 3); (4, 4)])).
Proof.
  assert (H : count two_live ≤ size two_live) by (change (2 ≤ 2); lia).
  split; [exact H|].
  exact (news_count_and_capacity two_live [(3, 3); (4, 4)] H).
Defined.

Lemma news_within_capacity_allocate_nothing_witness :
  wf fresh_pool ∧
  count fresh_pool + Z.of_nat (length [(1, 1); (2, 2)]) ≤ size fresh_pool ∧
  dom (heap (news [(1, 1); (2, 2)] fresh_pool)) = dom (heap fresh_pool) ∧
  _pool (pool (news [(1, 1); (2, 2)] fresh_pool)) = _pool (pool fresh_pool).
Proof.
  assert (H : count fresh_pool + Z.of_nat (length [(1, 1); (2, 2)])
              ≤ size fresh_pool) by (change (0 + 2 ≤ 2); lia).
  split; [exact fresh_pool_wf|]. split; [exact H|].
  exact (news_within_capacity_allocate_nothing fresh_pool [(1, 1); (2, 2)]
           fresh_pool_wf H).
Defined.

Lemma unmoved_positions_hold_distinct_objects_witness :
  reachable_unmoved 0 (λ _, 1) (λ _, 0) three_live ∧
  arr_get (_pool (pool three_live)) 1 = Some 1%nat ∧
  arr_get (_pool (pool three_live)) (2 - 1) = Some 1%nat ∧
  1 = 2 - 1.
Proof.
  assert (H1 : arr_get (_pool (pool three_live)) 1 = Some 1%nat) by reflexivity.
  assert (H2 : arr_get (_pool (pool three_live)) (2 - 1) = Some 1%nat)
    by reflexivity.
  split; [exact three_live_unmoved|]. split; [exact H1|]. split; [exact H2|].
  exact (unmoved_positions_hold_distinct_objects 0 (λ _, 1) (λ _, 0)
           three_live 1 (2 - 1) 1%nat three_live_unmoved H1 H2).
Defined.

Lemma new_family_never_throws_witness :
  reachable 0 (λ _, 1) (λ _, 0) three_live ∧
  (∀ x0 y0, ∃ l, (new x0 y0 three_live).1 = Ok l) ∧
  (∀ angle, ∃ l, (fromAngle 0 (λ _, 1) (λ _, 0) angle three_live).1 = Ok l) ∧
  (∀ point, ∃ l, (fromObservablePoint 0 point three_live).1 = Ok l) ∧
  (∀ vector, is_Some (heap three_live !! vector) →
             ∃ l, (clone 0 vector three_live).1 = Ok l).
Proof.
  split; [exact three_live_reachable|].
  exact (new_family_never_throws 0 (λ _, 1) (λ _, 0) three_live three_live_reachable).
Defined.
